(** * Replicated in-memory cache: the LWW store, the HTTP handlers and the
      replication engine, embedded from the Go sources and checked against
      the specification.

    Layout of the development:
    - [GoTime]    : the fragment of Go's [time] package the code relies on;
    - [Item], [SyncMsg] : the data model (types.go);
    - [Store] operations [Get], [Put], [HardDeleteExpired] (store.go);
    - [Replicate]  : the quorum collector of node.go;
    - handlers [handleGet], [handlePut], [handleDelete], [handleSync]
      (http.go), written in a small handler monad with early return;
    - the theorems, one block per property of the specification. *)

From Stdlib Require Import ZArith String Ascii List Lia Bool.
From stdpp Require Import base option gmap strings list fin_maps.

Local Open Scope string_scope.
Local Open Scope Z_scope.

(* ===================================================================== *)
(** ** Machine integers *)
(* ===================================================================== *)

(** Go's [int64] (and [int] on 64-bit targets): arithmetic wraps around. *)
Definition minInt64 : Z := - 2 ^ 63.
Definition maxInt64 : Z := 2 ^ 63 - 1.
Definition wrap64 (z : Z) : Z := (z + 2 ^ 63) mod 2 ^ 64 - 2 ^ 63.

(* ===================================================================== *)
(** ** The fragment of package [time] used by the cache *)
(* ===================================================================== *)

Module GoTime.

(** An instant, in nanoseconds relative to the Unix epoch.  The monotonic
    reading that [time.Now] attaches to a value is taken to agree with the
    wall clock, so comparisons are comparisons of instants. *)
Definition Time := Z.

(** A [time.Duration] is an [int64] count of nanoseconds. *)
Definition Duration := Z.

Definition Nanosecond : Duration := 1.
Definition Millisecond : Duration := 1000000.
Definition Second : Duration := 1000000000.
Definition Minute : Duration := 60 * Second.
Definition Hour : Duration := 60 * Minute.
Definition minDuration : Duration := minInt64.
Definition maxDuration : Duration := maxInt64.

(** The zero [Time] is January 1, year 1, 00:00:00 UTC. *)
Definition zero : Time := -62135596800 * Second.

Definition IsZero (t : Time) : bool := t =? zero.
Definition After (t u : Time) : bool := u <? t.
Definition Add (t : Time) (d : Duration) : Time := t + d.

(** [time.Unix(0, nsec)]. *)
Definition Unix0 (nsec : Z) : Time := nsec.

(** [t.UnixNano()]: the instant squeezed into an [int64]. *)
Definition UnixNano (t : Time) : Z := wrap64 t.

(** [t.Sub(u)]: the difference, saturated to the range of [Duration]. *)
Definition Sub (t u : Time) : Duration :=
  let d := t - u in
  if d <? minDuration then minDuration
  else if maxDuration <? d then maxDuration
  else d.

End GoTime.

(* ===================================================================== *)
(** ** types.go *)
(* ===================================================================== *)

(** Byte slices are strings of 8-bit characters. *)
Record Item := mkItem {
  Value : string;
  ExpiresAt : GoTime.Time;
  Version : Z;          (* ns since epoch (origin's clock) *)
  Origin : string;      (* node id *)
  Tombstone : bool      (* deletion marker *)
}.

(** The zero value of the struct: what a composite literal leaves unset. *)
Definition zeroItem : Item :=
  {| Value := ""; ExpiresAt := GoTime.zero; Version := 0; Origin := "";
     Tombstone := false |}.

Definition expired (it : Item) (now : GoTime.Time) : bool :=
  negb (GoTime.IsZero (ExpiresAt it)) && GoTime.After now (ExpiresAt it).

Module SyncMsg.
Record t := mk {
  Op : string;                       (* "set" or "del" *)
  Key : string;
  Value : string;
  ExpiresAt : option GoTime.Time;    (* *time.Time, nil when absent *)
  Version : Z;
  Origin : string
}.
End SyncMsg.

(* ===================================================================== *)
(** ** store.go *)
(* ===================================================================== *)

(** Go's [>] on strings: byte-wise lexicographic comparison. *)
Definition string_gtb (a b : string) : bool :=
  match String.compare a b with Gt => true | _ => false end.

(** The contents of a [Store]; the mutex serialises the operations, so each
    one is a function of the map. *)
Abbreviation Store := (gmap string Item).

Definition NewStore : Store := ∅.

Definition Get (key : string) (s : Store) : Item * bool :=
  match s !! key with
  | Some it => (it, true)
  | None => (zeroItem, false)
  end.

(** The guard of the second branch of [Put]. *)
Definition newer (incoming cur : Item) : bool :=
  (Version incoming >? Version cur)
  || ((Version incoming =? Version cur)
      && string_gtb (Origin incoming) (Origin cur)).

(** [Put] applies last-write-wins using Version (then Origin to break
    ties).  Returns the new contents and [applied]. *)
Definition Put (key : string) (incoming : Item) (s : Store) : Store * bool :=
  match s !! key with
  | None => (<[key := incoming]> s, true)
  | Some cur =>
      if newer incoming cur then (<[key := incoming]> s, true)
      else (s, false)
  end.

(** The test of the sweep loop: does the body delete this entry? *)
Definition sweeps (now : GoTime.Time) (tombstoneTTL : GoTime.Duration)
    (v : Item) : bool :=
  if Tombstone v
     && (GoTime.Sub now (GoTime.Unix0 (Version v)) >? tombstoneTTL)
  then true
  else if negb (Tombstone v) && expired v now then true
  else false.

(** [for k, v := range s.data { ... delete(s.data, k) ... }]: every entry
    present at the start is visited once, and the body deletes at most the
    entry it is visiting. *)
Definition HardDeleteExpired (now : GoTime.Time)
    (tombstoneTTL : GoTime.Duration) (s : Store) : Store :=
  map_fold (fun k v (acc : Store) =>
              if sweeps now tombstoneTTL v then delete k acc else acc)
           s s.

(* ===================================================================== *)
(** ** node.go: peers and the replication engine *)
(* ===================================================================== *)

Record Node := mkNode {
  ID : string;
  peers : gset string      (* map[string]struct{} *)
}.

(** A snapshot of the peer set, in the order the map iteration yields. *)
Definition activePeers (n : Node) : list string := elements (peers n).

(** The [error] values built by the replication engine. *)
Inductive error :=
  | ErrNoPeers                               (* "no peers available" *)
  | ErrTimeout (target total acked : Z)      (* "timeout waiting for ..." *)
  | ErrStatus (code : Z)                     (* "status %d" *)
  | ErrTransport (e : string).               (* the error of client.Do *)

(** What [n.client.Do(req)] gives a delivery goroutine. *)
Inductive DoResult :=
  | DoErr (e : string)
  | DoResp (StatusCode : Z).

(** [type res struct{ ok bool; err error }] *)
Record res := mkRes { ok : bool; err : option error }.

(** The body of one delivery goroutine, from the answer of the peer to the
    value it sends on [ch]. *)
Definition deliver (r : DoResult) : res :=
  match r with
  | DoErr e => mkRes false (Some (ErrTransport e))
  | DoResp code =>
      if Z.quot code 100 =? 2 then mkRes true None
      else mkRes false (Some (ErrStatus code))
  end.

(** The acknowledgement target computed at the head of [Replicate]. *)
Definition replTarget (min : Z) (full : bool) (total : Z) : Z :=
  let target := min in
  let target := if full then total else target in
  let target := if target <? 0 then 0 else target in
  let target := if target >? total then total else target in
  target.

(** The collecting loop.  [arrivals] lists the values the [select] takes
    from [ch], in order, before [ctx.Done()] wins; when it is exhausted the
    next thing the loop sees is the deadline. *)
Fixpoint collect (target total : Z) (arrivals : list res) (acked : Z)
    (firstErr : option error) : Z * Z * option error :=
  if acked <? target then
    match arrivals with
    | [] =>
        let firstErr :=
          match firstErr with
          | None => Some (ErrTimeout target total acked)
          | Some e => Some e
          end in
        (acked, total, firstErr)
    | r :: rest =>
        if ok r then collect target total rest (acked + 1) firstErr
        else
          match firstErr with
          | None => collect target total rest acked (err r)
          | Some _ => collect target total rest acked firstErr
          end
    end
  else (acked, total, firstErr).

(* ===================================================================== *)
(** ** Observable effects and the handler monad *)
(* ===================================================================== *)

(** What a node does besides answering: entering [Replicate] (recorded so
    that a call shows even when nothing is posted), and posting a sync
    message to a peer. *)
Inductive Effect :=
  | CallReplicate (msg : SyncMsg.t) (min : Z) (full : bool)
  | PostSync (peer : string) (msg : SyncMsg.t).

Record World := mkWorld {
  store : Store;
  trace : list Effect
}.

Inductive Body :=
  | NoBody
  | Raw (bytes : string)                        (* w.Write(it.Value) *)
  | ErrText (msg : string)                      (* http.Error(w, msg, _) *)
  | ReplicationError (e : error) (acked total : Z).

Record Response := mkResponse {
  status : Z;
  body : Body;
  replicated : option (Z * Z)    (* X-Replicated-Acked, X-Replicated-Total *)
}.

(** A handler step either writes the response and returns ([inl]) or goes
    on with a value ([inr]). *)
Definition Handler (A : Type) : Type := World -> (Response + A) * World.

Definition ret {A} (a : A) : Handler A := fun w => (inr a, w).

Definition bind {A B} (m : Handler A) (f : A -> Handler B) : Handler B :=
  fun w =>
    match m w with
    | (inl r, w') => (inl r, w')
    | (inr a, w') => f a w'
    end.

Definition reply {A} (r : Response) : Handler A := fun w => (inl r, w).

Definition emit (e : Effect) : Handler unit :=
  fun w => (inr tt, mkWorld (store w) (trace w ++ [e])).

Definition storeGet (key : string) : Handler (Item * bool) :=
  fun w => (inr (Get key (store w)), w).

Definition storePut (key : string) (it : Item) : Handler bool :=
  fun w => let '(s', applied) := Put key it (store w) in
           (inr applied, mkWorld s' (trace w)).

Definition run (h : Handler Response) (w : World) : Response * World :=
  match h w with
  | (inl r, w') => (r, w')
  | (inr r, w') => (r, w')
  end.

Declare Scope handler_scope.
Delimit Scope handler_scope with handler.
Notation "x <- m ;; k" := (bind m (fun x => k))
  (at level 100, m at next level, right associativity) : handler_scope.
Notation "m ;;; k" := (bind m (fun _ => k))
  (at level 100, right associativity) : handler_scope.

(** [http.Error] and [http.NotFound]. *)
Definition httpError {A} (msg : string) (code : Z) : Handler A :=
  reply (mkResponse code (ErrText msg) None).
Definition httpNotFound {A} : Handler A :=
  httpError "404 page not found" 404.

(** One goroutine per peer, each posting the payload to [peer/sync]. *)
Fixpoint dispatch (ps : list string) (msg : SyncMsg.t) : Handler unit :=
  match ps with
  | [] => ret tt
  | p :: rest => (emit (PostSync p msg) ;;; dispatch rest msg)%handler
  end.

(** [Replicate] sends a SyncMsg to peers and waits for min/full
    acknowledgements.  [arrivals] are the answers of the deliveries whose
    results the collecting loop receives before the deadline, in order.
    The calls of the goroutines to [bumpFail] touch the peer registry only
    and are left out. *)
Definition Replicate (n : Node) (msg : SyncMsg.t) (min : Z) (full : bool)
    (arrivals : list DoResult) : Handler (Z * Z * option error) :=
  (emit (CallReplicate msg min full) ;;;
   let peers := activePeers n in
   let total := Z.of_nat (length peers) in
   if total =? 0 then
     if (min >? 0) || full then ret (0, 0, Some ErrNoPeers)
     else ret (0, 0, None)
   else
     let target := replTarget min full total in
     dispatch peers msg ;;;
     ret (collect target total (map deliver arrivals) 0 None))%handler.

Arguments Replicate : simpl never.

(* ===================================================================== *)
(** ** util.go and http.go *)
(* ===================================================================== *)

Definition ptrTimeOrNil (t : GoTime.Time) : option GoTime.Time :=
  if GoTime.IsZero t then None else Some t.

(** [strings.TrimPrefix]. *)
Definition TrimPrefix (s pre : string) : string :=
  if String.prefix pre s
  then String.substring (String.length pre)
                        (String.length s - String.length pre) s
  else s.

(** First element of [strings.SplitN(s, "/", 2)]: the text before the
    first slash, or all of [s] when it has none. *)
Fixpoint firstPart (s : string) : string :=
  match s with
  | EmptyString => EmptyString
  | String c rest =>
      if Ascii.eqb c "/"%char then EmptyString else String c (firstPart rest)
  end.

(** [None] stands for the error "missing key". *)
Definition keyFromPath (path : string) : option string :=
  let part0 := firstPart (TrimPrefix path "/kv/") in
  if String.eqb part0 "" then None else Some part0.

(** An HTTP request as the handlers read it. *)
Record Request := mkRequest {
  path : string;                  (* r.URL.Path *)
  query : string -> string;       (* r.URL.Query().Get *)
  reqBody : option string         (* io.ReadAll(r.Body); None on error *)
}.

Section Handlers.

(** Library parsers, taken as given: [time.ParseDuration],
    [strconv.ParseInt(_, 10, 64)] and [strconv.Atoi]; [None] is an
    error. *)
Variable ParseDuration : string -> option GoTime.Duration.
Variable ParseInt : string -> option Z.
Variable Atoi : string -> option Z.

(** [None] stands for the error "bad ttl: ..." (the wrapped cause is not
    kept). *)
Definition parseDurationQS (v : string) : option GoTime.Duration :=
  if String.eqb v "" then Some 0
  else match ParseDuration v with
       | Some d => Some d
       | None =>
           match ParseInt v with
           | None => None
           | Some secs => Some (wrap64 (secs * GoTime.Second))
           end
       end.

(** The [min] query parameter, as both write handlers read it. *)
Definition minRepOf (r : Request) : Z :=
  let q := query r "min" in
  if negb (String.eqb q "") then
    match Atoi q with
    | Some v => if v >=? 0 then v else 0
    | None => 0
    end
  else 0.

Definition fullOf (r : Request) : bool := String.eqb (query r "full") "true".

Definition handleGet (n : Node) (r : Request) (now : GoTime.Time)
    : Handler Response :=
  (match keyFromPath (path r) with
   | None => httpError "missing key" 400
   | Some key =>
       g <- storeGet key ;;
       let '(it, ok) := g in
       if negb ok || Tombstone it || expired it now then httpNotFound
       else ret (mkResponse 200 (Raw (Value it)) None)
   end)%handler.

(** [now1] and [now2] are the two readings of [time.Now()], [arrivals]
    what the replication collects. *)
Definition handlePut (n : Node) (r : Request) (now1 now2 : GoTime.Time)
    (arrivals : list DoResult) : Handler Response :=
  (match keyFromPath (path r) with
   | None => httpError "missing key" 400
   | Some key =>
   match reqBody r with
   | None => httpError "read body error" 400
   | Some body =>
   match parseDurationQS (query r "ttl") with
   | None => httpError "bad ttl" 400
   | Some ttl =>
       let minRep := minRepOf r in
       let full := fullOf r in
       let version := GoTime.UnixNano now1 in
       let item := {| Value := body; ExpiresAt := GoTime.zero;
                      Version := version; Origin := ID n;
                      Tombstone := false |} in
       let item :=
         if ttl >? 0
         then {| Value := Value item; ExpiresAt := GoTime.Add now2 ttl;
                 Version := Version item; Origin := Origin item;
                 Tombstone := Tombstone item |}
         else item in
       applied <- storePut key item ;;
       if negb applied then httpError "write lost to newer version" 409
       else
         a <- Replicate n
                (SyncMsg.mk "set" key body (ptrTimeOrNil (ExpiresAt item))
                            version (ID n))
                minRep full arrivals ;;
         let '(acked, total, err) := a in
         match err with
         | Some e => reply (mkResponse 502 (ReplicationError e acked total) None)
         | None => ret (mkResponse 201 NoBody (Some (acked, total)))
         end
   end end end)%handler.

Definition handleDelete (n : Node) (r : Request) (now : GoTime.Time)
    (arrivals : list DoResult) : Handler Response :=
  (match keyFromPath (path r) with
   | None => httpError "missing key" 400
   | Some key =>
       let minRep := minRepOf r in
       let full := fullOf r in
       let version := GoTime.UnixNano now in
       let it := {| Value := ""; ExpiresAt := GoTime.zero;
                    Version := version; Origin := ID n;
                    Tombstone := true |} in
       storePut key it ;;;
       a <- Replicate n (SyncMsg.mk "del" key "" None version (ID n))
              minRep full arrivals ;;
       let '(acked, total, err) := a in
       match err with
       | Some e => reply (mkResponse 502 (ReplicationError e acked total) None)
       | None => ret (mkResponse 204 NoBody (Some (acked, total)))
       end
   end)%handler.

(** [decoded] is the outcome of decoding the JSON body; [None] on a
    decoding error. *)
Definition handleSync (n : Node) (decoded : option SyncMsg.t)
    : Handler Response :=
  (match decoded with
   | None => httpError "bad json" 400
   | Some msg =>
       (if String.eqb (SyncMsg.Op msg) "set" then
          let item := {| Value := SyncMsg.Value msg;
                         ExpiresAt := GoTime.zero;
                         Version := SyncMsg.Version msg;
                         Origin := SyncMsg.Origin msg;
                         Tombstone := false |} in
          let item :=
            match SyncMsg.ExpiresAt msg with
            | Some e => {| Value := Value item; ExpiresAt := e;
                           Version := Version item; Origin := Origin item;
                           Tombstone := Tombstone item |}
            | None => item
            end in
          storePut (SyncMsg.Key msg) item ;;; ret tt
        else if String.eqb (SyncMsg.Op msg) "del" then
          storePut (SyncMsg.Key msg)
                   {| Value := ""; ExpiresAt := GoTime.zero;
                      Version := SyncMsg.Version msg;
                      Origin := SyncMsg.Origin msg;
                      Tombstone := true |} ;;; ret tt
        else httpError "unknown op" 400) ;;;
       ret (mkResponse 204 NoBody None)
   end)%handler.

End Handlers.

(* ===================================================================== *)
(** ** The order of the specification *)
(* ===================================================================== *)

(** Lexicographic order on byte strings, written out: a proper prefix comes
    first, otherwise the first differing byte decides. *)
Inductive lex_lt : string -> string -> Prop :=
  | lex_lt_nil c s : lex_lt EmptyString (String c s)
  | lex_lt_head c1 c2 s1 s2 :
      (N_of_ascii c1 < N_of_ascii c2)%N -> lex_lt (String c1 s1) (String c2 s2)
  | lex_lt_tail c s1 s2 : lex_lt s1 s2 -> lex_lt (String c s1) (String c s2).

(** The (version, origin) pair of an entry. *)
Definition lww_key (it : Item) : Z * string := (Version it, Origin it).

(** [lww_lt a b]: [b] wins over [a].  Higher version wins; on equal
    version the lexicographically greater origin wins. *)
Definition lww_lt (a b : Item) : Prop :=
  Version a < Version b \/ (Version a = Version b /\ lex_lt (Origin a) (Origin b)).

(** A node's history of accepted writes (client writes and inbound sync
    messages alike end in one [Put]), applied first to last. *)
Definition PutAll (l : list (string * Item)) (s : Store) : Store :=
  fold_left (fun acc kv => (Put kv.1 kv.2 acc).1) l s.

(** Time elapsed at [now] since the version timestamp of an entry, as a
    [Duration]. *)
Definition age (now : GoTime.Time) (v : Item) : GoTime.Duration :=
  GoTime.Sub now (GoTime.Unix0 (Version v)).

(** A tombstone whose deletion timestamp is older than [ttl] before [now]. *)
Definition stale_tombstone (now : GoTime.Time) (ttl : GoTime.Duration)
    (v : Item) : Prop :=
  Tombstone v = true /\ ttl < age now v.

(** An entry that carries an expiry, and the expiry is in the past. *)
Definition past_expiry (now : GoTime.Time) (v : Item) : Prop :=
  ExpiresAt v <> GoTime.zero /\ ExpiresAt v < now.

(** What a sweep is to collect. *)
Definition garbage (now : GoTime.Time) (ttl : GoTime.Duration) (v : Item)
    : Prop :=
  stale_tombstone now ttl v \/ (Tombstone v = false /\ past_expiry now v).

(* ===================================================================== *)
(** ** Auxiliary definitions for the statements and the worked examples *)
(* ===================================================================== *)

(** The entry [Put] leaves at the key, given what was there. *)
Definition merged (cur : option Item) (incoming : Item) : Item :=
  match cur with
  | None => incoming
  | Some c => if newer incoming c then incoming else c
  end.

(** Sample entries, as in the examples of the specification. *)
Definition entryA : Item := mkItem "a" GoTime.zero 1 "A" false.
Definition entryB : Item := mkItem "b" GoTime.zero 0 "B" false.
Definition entryZ : Item := mkItem "c" GoTime.zero 1 "Z" false.
Definition entryA' : Item := mkItem "b" GoTime.zero 1 "A" false.

(** Scenario 4 of the specification, and scenario 3 for the expiry. *)
Definition clock0 : GoTime.Time := 1754784000 * GoTime.Second.
Definition entryDel : Item :=
  mkItem "" GoTime.zero (clock0 - 10 * GoTime.Minute) "" true.
Definition entryTtl : Item :=
  mkItem "v" (clock0 - 10 * GoTime.Millisecond) (clock0 - 20 * GoTime.Millisecond) "" false.
Definition storeGC : Store := <["del" := entryDel]> (<["ttl" := entryTtl]> ∅).

Definition notFound : Response := mkResponse 404 (ErrText "404 page not found") None.

Definition nodeN1 : Node := mkNode "N1" {[ "http://a"; "http://b" ]}.
Definition noQuery : string -> string := fun _ => "".

Definition nodeLone : Node := mkNode "N1" ∅.
Definition msgSet : SyncMsg.t := SyncMsg.mk "set" "k" "v" None 100 "N1".
Definition world0 : World := mkWorld ∅ [].

(** Unsigned decimal numerals, standing in for the library parsers in the
    worked examples. *)
Definition digitOf (c : ascii) : option Z :=
  let d := Z.of_N (N_of_ascii c) in
  if (48 <=? d) && (d <=? 57) then Some (d - 48) else None.

Fixpoint decimalFrom (acc : Z) (s : string) : option Z :=
  match s with
  | EmptyString => Some acc
  | String c rest =>
      match digitOf c with
      | Some d => decimalFrom (10 * acc + d) rest
      | None => None
      end
  end.

Definition decimal (s : string) : option Z :=
  if String.eqb s "" then None else decimalFrom 0 s.

Definition noDuration : string -> option GoTime.Duration := fun _ => None.

Definition queryMin1 : string -> string :=
  fun q => if String.eqb q "min" then "1" else "".

(** The result of the replication decides the answer of a write. *)
Definition answer (okStatus : Z) (a : Z * Z * option error) : Response :=
  match a with
  | (acked, total, Some e) => mkResponse 502 (ReplicationError e acked total) None
  | (acked, total, None) => mkResponse okStatus NoBody (Some (acked, total))
  end.

(** The tombstone a DELETE on [key] builds. *)
Definition tombstoneOf (n : Node) (now : GoTime.Time) : Item :=
  mkItem "" GoTime.zero (GoTime.UnixNano now) (ID n) true.

(** The entry an inbound sync message stands for. *)
Definition entryOf (msg : SyncMsg.t) : Item :=
  if String.eqb (SyncMsg.Op msg) "del"
  then mkItem "" GoTime.zero (SyncMsg.Version msg) (SyncMsg.Origin msg) true
  else mkItem (SyncMsg.Value msg)
              (default GoTime.zero (SyncMsg.ExpiresAt msg))
              (SyncMsg.Version msg) (SyncMsg.Origin msg) false.

(** Every entry the store may hold for [key] is [w] or loses to [w]. *)
Definition below (key : string) (w : Item) (s : Store) : Prop :=
  forall cur, s !! key = Some cur -> cur = w \/ lww_lt cur w.

(** A node that has been handed the write [w] for [key], all its other
    writes to [key], past and delivered, being [w] again or losers to it. *)
Definition reached (key : string) (w : Item) (nd : Store * list (string * Item))
    : Prop :=
  (key, w) ∈ nd.2
  /\ (forall x, (key, x) ∈ nd.2 -> x = w \/ lww_lt x w)
  /\ below key w nd.1.

(** The two-node cluster of scenarios 5 and 6. *)
Definition nodeA : Node := mkNode "N1" {[ "http://n2" ]}.
Definition nodeB : Node := mkNode "N2" ∅.
Definition msgHello : SyncMsg.t :=
  SyncMsg.mk "set" "hello" "world" None clock0 "N1".
Definition queryFull : string -> string :=
  fun q => if String.eqb q "full" then "true" else "".

Definition entryOld : Item := mkItem "old" GoTime.zero 1000 "N2" false.
Definition entryNew : Item := mkItem "new" 3000 2000 "N3" false.

(* ===================================================================== *)
(** ** Strings: the library comparison is the lexicographic order *)
(* ===================================================================== *)

Lemma ascii_compare_Lt c1 c2 :
  Ascii.compare c1 c2 = Lt <-> (N_of_ascii c1 < N_of_ascii c2)%N.
Proof. unfold Ascii.compare. by rewrite N.compare_lt_iff. Qed.

Lemma ascii_compare_Eq c1 c2 : Ascii.compare c1 c2 = Eq <-> c1 = c2.
Proof.
  split; [apply Ascii.compare_eq_iff|].
  intros ->. unfold Ascii.compare. apply N.compare_refl.
Qed.

Lemma string_compare_refl a : String.compare a a = Eq.
Proof.
  induction a as [|c a IH]; simpl; [done|].
  by rewrite (proj2 (ascii_compare_Eq c c) eq_refl).
Qed.

Lemma string_compare_Lt a b : String.compare a b = Lt <-> lex_lt a b.
Proof.
  revert b. induction a as [|c a IH]; intros [|d b]; simpl.
  - split; [done|inversion 1].
  - split; [constructor|done].
  - split; [done|inversion 1].
  - destruct (Ascii.compare c d) eqn:E.
    + apply ascii_compare_Eq in E as ->. rewrite IH. split.
      * by constructor.
      * inversion 1; subst; [lia|done].
    + apply ascii_compare_Lt in E. split; [by constructor|done].
    + split; [done|].
      inversion 1 as [ | ? ? ? ? Hlt | ? ? ? Hlt ]; subst.
      * apply ascii_compare_Lt in Hlt. congruence.
      * rewrite (proj2 (ascii_compare_Eq d d) eq_refl) in E. done.
Qed.

Lemma string_gtb_lex a b : string_gtb a b = true <-> lex_lt b a.
Proof.
  unfold string_gtb. rewrite <- string_compare_Lt, (String.compare_antisym b a).
  destruct (String.compare a b); simpl; split; congruence.
Qed.

Lemma lex_lt_irrefl a : ~ lex_lt a a.
Proof. rewrite <- string_compare_Lt, string_compare_refl. done. Qed.

Lemma lex_lt_trans a b c : lex_lt a b -> lex_lt b c -> lex_lt a c.
Proof.
  intros Hab. revert c. induction Hab; intros c' Hbc; inversion Hbc; subst.
  - constructor.
  - constructor.
  - constructor. lia.
  - by constructor.
  - by constructor.
  - apply lex_lt_tail. by apply IHHab.
Qed.

Lemma lex_lt_total a b : lex_lt a b \/ a = b \/ lex_lt b a.
Proof.
  destruct (String.compare a b) eqn:E.
  - right; left. by apply String.compare_eq_iff.
  - left. by apply string_compare_Lt.
  - right; right. apply string_gtb_lex. unfold string_gtb. by rewrite E.
Qed.

(** The guard of [Put] decides the order of the specification. *)
Lemma newer_lww incoming cur : newer incoming cur = true <-> lww_lt cur incoming.
Proof.
  unfold newer, lww_lt.
  rewrite orb_true_iff, andb_true_iff, Z.gtb_lt, Z.eqb_eq, string_gtb_lex.
  intuition.
Qed.

Lemma newer_false incoming cur : newer incoming cur = false <-> ~ lww_lt cur incoming.
Proof. rewrite <- newer_lww. by destruct (newer incoming cur). Qed.

Lemma lww_lt_irrefl a : ~ lww_lt a a.
Proof. intros [?|[_ ?%lex_lt_irrefl]]; [lia|done]. Qed.

Lemma lww_lt_trans a b c : lww_lt a b -> lww_lt b c -> lww_lt a c.
Proof.
  unfold lww_lt. intros [?|[? ?]] [?|[? ?]]; try (left; lia).
  right. split; [lia|]. by eapply lex_lt_trans.
Qed.

Lemma lww_lt_asym a b : lww_lt a b -> ~ lww_lt b a.
Proof. intros H1 H2. by apply (lww_lt_irrefl a), (lww_lt_trans a b a). Qed.

Lemma lww_lt_cycle a b : lww_lt a b -> lww_lt b a -> False.
Proof. apply lww_lt_asym. Qed.

Lemma lww_lt_total a b : lww_lt a b \/ lww_key a = lww_key b \/ lww_lt b a.
Proof.
  unfold lww_lt, lww_key.
  destruct (Z.lt_trichotomy (Version a) (Version b)) as [?|[E|?]]; [tauto| |tauto].
  destruct (lex_lt_total (Origin a) (Origin b)) as [?|[E'|?]].
  - left. by right.
  - right; left. congruence.
  - right; right. by right.
Qed.

Lemma lww_lt_key_l a a' b : lww_key a = lww_key a' -> lww_lt a b -> lww_lt a' b.
Proof. unfold lww_key, lww_lt. intros [= -> ->]. done. Qed.

Lemma lww_lt_key_r a b b' : lww_key b = lww_key b' -> lww_lt a b -> lww_lt a b'.
Proof. unfold lww_key, lww_lt. intros [= -> ->]. done. Qed.

(* ===================================================================== *)
(** ** Store.Put *)
(* ===================================================================== *)

Lemma Put_fst key incoming s :
  (Put key incoming s).1 = <[key := merged (s !! key) incoming]> s.
Proof.
  unfold Put, merged. destruct (s !! key) as [cur|] eqn:E; [|done].
  destruct (newer incoming cur); [done|]. simpl. by rewrite insert_id.
Qed.

Lemma Put_lookup key incoming s :
  (Put key incoming s).1 !! key = Some (merged (s !! key) incoming).
Proof. by rewrite Put_fst, lookup_insert_eq. Qed.

Lemma Put_lookup_ne key key' incoming s :
  key <> key' -> (Put key incoming s).1 !! key' = s !! key'.
Proof. intros. by rewrite Put_fst, lookup_insert_ne. Qed.

Lemma Put_Put_fst key a b s :
  (Put key b (Put key a s).1).1
  = <[key := merged (Some (merged (s !! key) a)) b]> s.
Proof. by rewrite Put_fst, Put_lookup, Put_fst, insert_insert_eq. Qed.

Ltac split_newer :=
  repeat match goal with
         | H : newer _ _ = true |- _ => apply newer_lww in H
         | H : newer _ _ = false |- _ => apply newer_false in H
         | H : context [newer ?x ?y] |- _ => destruct (newer x y) eqn:?
         | |- context [newer ?x ?y] => destruct (newer x y) eqn:?
         end.

Lemma merged_max cur incoming :
  let w := merged cur incoming in
  (w = incoming \/ cur = Some w)
  /\ ~ lww_lt w incoming
  /\ (forall c, cur = Some c -> ~ lww_lt w c).
Proof.
  unfold merged. destruct cur as [c|]; simpl.
  - split_newer.
    + split; [by left|]. split; [apply lww_lt_irrefl|].
      intros ? [= <-]. by apply lww_lt_asym.
    + split; [by right|]. split; [done|]. intros ? [= <-]. apply lww_lt_irrefl.
  - split; [by left|]. split; [apply lww_lt_irrefl|done].
Qed.

Lemma merged_comm cur a b :
  lww_key a <> lww_key b \/ a = b ->
  merged (Some (merged cur a)) b = merged (Some (merged cur b)) a.
Proof.
  intros [Hne| ->]; [|done].
  assert (lww_lt a b \/ lww_lt b a) as Hab
    by (destruct (lww_lt_total a b) as [?|[?|?]]; tauto).
  unfold merged. destruct cur as [c|].
  - destruct (newer a c) eqn:?, (newer b c) eqn:?; split_newer; try done;
      exfalso; destruct Hab; eauto 6 using lww_lt_trans, lww_lt_cycle.
  - split_newer; try done; exfalso; destruct Hab; eauto using lww_lt_cycle.
Qed.

(** C3. [Put] stores the incoming entry and reports [true] when the key is
    free; on an occupied key it stores the incoming entry and reports [true]
    exactly when the incoming (version, origin) pair is strictly greater
    than the current one, and otherwise leaves the store as it is and
    reports [false].  In particular putting the entry that is already
    stored changes nothing and reports [false]. *)
Theorem Put_last_write_wins (key : string) (incoming : Item) (s : Store) :
  (s !! key = None -> Put key incoming s = (<[key := incoming]> s, true))
  /\ (forall cur, s !! key = Some cur -> lww_lt cur incoming ->
        Put key incoming s = (<[key := incoming]> s, true))
  /\ (forall cur, s !! key = Some cur -> ~ lww_lt cur incoming ->
        Put key incoming s = (s, false))
  /\ (s !! key = Some incoming -> Put key incoming s = (s, false))
  /\ Put key incoming (Put key incoming s).1 = ((Put key incoming s).1, false).
Proof.
  assert (forall cur, s !! key = Some cur -> ~ lww_lt cur incoming ->
            Put key incoming s = (s, false)) as Hstale.
  { intros cur E H. unfold Put. rewrite E.
    by rewrite (proj2 (newer_false incoming cur) H). }
  repeat split.
  - intros E. unfold Put. by rewrite E.
  - intros cur E H. unfold Put. rewrite E.
    by rewrite (proj2 (newer_lww incoming cur) H).
  - done.
  - intros E. apply (Hstale incoming E), lww_lt_irrefl.
  - unfold Put at 1. rewrite Put_lookup.
    destruct (merged_max (s !! key) incoming) as (_ & Hmax & _).
    by rewrite (proj2 (newer_false _ _) Hmax).
Qed.

Lemma Put_last_write_wins_witness :
  Put "k" entryA ∅ = (<["k" := entryA]> ∅, true)
  /\ Put "k" entryZ (<["k" := entryA]> ∅) = (<["k" := entryZ]> (<["k" := entryA]> ∅), true)
  /\ Put "k" entryB (<["k" := entryA]> ∅) = (<["k" := entryA]> ∅, false)
  /\ Put "k" entryA (<["k" := entryA]> ∅) = (<["k" := entryA]> ∅, false).
Proof.
  split; [|split; [|split]].
  - apply (Put_last_write_wins "k" entryA ∅). reflexivity.
  - apply (Put_last_write_wins "k" entryZ (<["k" := entryA]> ∅)) with entryA.
    + reflexivity.
    + right. split; [reflexivity|]. apply lex_lt_head. vm_compute. reflexivity.
  - apply (Put_last_write_wins "k" entryB (<["k" := entryA]> ∅)) with entryA.
    + reflexivity.
    + intros [H|[H _]]; vm_compute in H; discriminate H.
  - apply (Put_last_write_wins "k" entryA (<["k" := entryA]> ∅)). reflexivity.
Defined.

(** C4, as stated, fails: two different writes carrying the same
    (version, origin) pair are kept in arrival order, so the two orders of
    application leave different stores. *)
Lemma Put_tie_order_counterexample :
  lww_key entryA = lww_key entryA'
  /\ (Put "k" entryA' (Put "k" entryA ∅).1).1 !! "k" = Some entryA
  /\ (Put "k" entryA (Put "k" entryA' ∅).1).1 !! "k" = Some entryA'
  /\ (Put "k" entryA' (Put "k" entryA ∅).1).1
     <> (Put "k" entryA (Put "k" entryA' ∅).1).1.
Proof.
  split; [reflexivity|]. split; [reflexivity|]. split; [reflexivity|].
  intros H. apply (f_equal (fun m : Store => m !! "k")) in H.
  vm_compute in H. discriminate H.
Qed.

(** C4, amended.  For two writes to one key whose (version, origin) pairs
    differ (or which are the same entry), the two orders of application
    give the same store, and the entry left at the key is maximal among
    the two writes and the entry that was there before; on a free key it
    is the write with the greater pair. *)
Theorem Put_order_independent (key : string) (a b : Item) (s : Store) :
  lww_key a <> lww_key b \/ a = b ->
  (Put key b (Put key a s).1).1 = (Put key a (Put key b s).1).1
  /\ exists w, (Put key b (Put key a s).1).1 !! key = Some w
       /\ (w = a \/ w = b \/ s !! key = Some w)
       /\ ~ lww_lt w a /\ ~ lww_lt w b
       /\ (forall cur, s !! key = Some cur -> ~ lww_lt w cur)
       /\ (s !! key = None -> lww_lt a b -> w = b)
       /\ (s !! key = None -> lww_lt b a -> w = a).
Proof.
  intros Hdist. rewrite !Put_Put_fst. split.
  { by rewrite merged_comm. }
  exists (merged (Some (merged (s !! key) a)) b).
  rewrite lookup_insert_eq.
  destruct (merged_max (s !! key) a) as (Hin1 & Hmax1 & Hcur1).
  destruct (merged_max (Some (merged (s !! key) a)) b) as (Hin2 & Hmax2 & Hcur2).
  specialize (Hcur2 _ eq_refl).
  set (x := merged (s !! key) a) in *.
  set (w := merged (Some x) b) in *.
  assert (~ lww_lt w a) as Hwa.
  { intros Hlt. destruct (lww_lt_total w x) as [?|[E|?]]; [done| |].
    - apply Hmax1. by apply (lww_lt_key_l w x a).
    - apply Hmax1. by apply (lww_lt_trans x w a). }
  assert (forall cur, s !! key = Some cur -> ~ lww_lt w cur) as Hwc.
  { intros cur Ecur Hlt. specialize (Hcur1 cur Ecur).
    destruct (lww_lt_total w x) as [?|[E|?]]; [done| |].
    - apply Hcur1. by apply (lww_lt_key_l w x cur).
    - apply Hcur1. by apply (lww_lt_trans x w cur). }
  assert (w = a \/ w = b \/ s !! key = Some w) as Hin.
  { destruct Hin2 as [->|[= <-]]; [tauto|].
    destruct Hin1 as [->|?]; tauto. }
  split; [done|]. split; [done|]. split; [done|]. split; [done|].
  split; [done|]. split.
  - intros En Hab. destruct Hin as [->|[->|E]]; [done|done|congruence].
  - intros En Hba. destruct Hin as [->|[->|E]]; [done|done|congruence].
Qed.

Lemma Put_order_independent_witness :
  (Put "k" entryZ (Put "k" entryA ∅).1).1 = (Put "k" entryA (Put "k" entryZ ∅).1).1
  /\ (Put "k" entryZ (Put "k" entryA ∅).1).1 !! "k" = Some entryZ.
Proof.
  assert (lww_key entryA <> lww_key entryZ \/ entryA = entryZ) as Hd.
  { left. intros H. vm_compute in H. discriminate H. }
  destruct (Put_order_independent "k" entryA entryZ ∅ Hd) as [Heq _].
  split; [exact Heq|reflexivity].
Defined.

(* ===================================================================== *)
(** ** Expiry and the sweep *)
(* ===================================================================== *)

Lemma expired_past_expiry it now : expired it now = true <-> past_expiry now it.
Proof.
  unfold expired, past_expiry, GoTime.IsZero, GoTime.After.
  rewrite andb_true_iff, negb_true_iff, Z.eqb_neq, Z.ltb_lt. done.
Qed.

(** Unless the difference leaves the range of [Duration], the age is the
    plain difference of the two instants. *)
Lemma age_exact now v :
  GoTime.minDuration <= now - Version v <= GoTime.maxDuration ->
  age now v = now - Version v.
Proof.
  unfold age, GoTime.Sub, GoTime.Unix0. intros [Hlo Hhi].
  destruct (Z.ltb_spec (now - Version v) GoTime.minDuration); [lia|].
  destruct (Z.ltb_spec GoTime.maxDuration (now - Version v)); [lia|done].
Qed.

(** For any [ttl] a [Duration] can hold, short of the largest one, the
    saturation is invisible: the tombstone is stale exactly when its
    timestamp lies more than [ttl] before [now]. *)
Lemma stale_tombstone_arith now ttl v :
  GoTime.minDuration <= ttl < GoTime.maxDuration ->
  stale_tombstone now ttl v <-> Tombstone v = true /\ Version v + ttl < now.
Proof.
  unfold stale_tombstone, age, GoTime.Sub, GoTime.Unix0. intros [Hlo Hhi].
  destruct (Z.ltb_spec (now - Version v) GoTime.minDuration);
    [|destruct (Z.ltb_spec GoTime.maxDuration (now - Version v))];
    split; intros [? ?]; split; try done; lia.
Qed.

Lemma sweeps_garbage now ttl v : sweeps now ttl v = true <-> garbage now ttl v.
Proof.
  unfold sweeps, garbage, stale_tombstone, age.
  rewrite <- expired_past_expiry.
  destruct (Tombstone v); simpl.
  - destruct (Z.gtb_spec (GoTime.Sub now (GoTime.Unix0 (Version v))) ttl).
    + split; [intros _; left; split; [done|lia]|done].
    + split; [done|]. intros [[_ ?]|[? _]]; [lia|done].
  - destruct (expired v now).
    + split; [intros _; by right|done].
    + split; [done|]. intros [[? _]|[_ ?]]; done.
Qed.

(** The sweep loop, for any map being swept and any map being deleted
    from. *)
Lemma sweep_fold_lookup now ttl (m acc : Store) key :
  map_fold (fun k v (r : Store) => if sweeps now ttl v then delete k r else r)
           acc m !! key
  = match m !! key with
    | Some v => if sweeps now ttl v then None else acc !! key
    | None => acc !! key
    end.
Proof.
  revert key.
  apply (map_fold_weak_ind (fun (r : Store) (m : Store) =>
    forall key, r !! key = match m !! key with
                           | Some v => if sweeps now ttl v then None else acc !! key
                           | None => acc !! key
                           end)).
  - intros key. by rewrite lookup_empty.
  - intros i x m' r Hi IH key. rewrite lookup_insert.
    destruct (decide (i = key)) as [->|Hne].
    + destruct (sweeps now ttl x).
      * by rewrite lookup_delete_eq.
      * by rewrite IH, Hi.
    + destruct (sweeps now ttl x).
      * rewrite lookup_delete_ne by done. apply IH.
      * apply IH.
Qed.

Lemma HardDeleteExpired_lookup now ttl (s : Store) key :
  HardDeleteExpired now ttl s !! key
  = match s !! key with
    | Some v => if sweeps now ttl v then None else Some v
    | None => None
    end.
Proof.
  unfold HardDeleteExpired. rewrite sweep_fold_lookup.
  destruct (s !! key); done.
Qed.

(** C6. A sweep removes exactly the garbage: every tombstone whose version
    timestamp is older than [tombstoneTTL] before [now], and every live
    entry whose expiry is in the past; every other entry, a tombstone still
    within [tombstoneTTL] included, stays as it was, and nothing appears. *)
Theorem HardDeleteExpired_exact (now : GoTime.Time)
    (tombstoneTTL : GoTime.Duration) (s : Store) (key : string) :
  (forall v, s !! key = Some v -> garbage now tombstoneTTL v ->
     HardDeleteExpired now tombstoneTTL s !! key = None)
  /\ (forall v, s !! key = Some v -> ~ garbage now tombstoneTTL v ->
        HardDeleteExpired now tombstoneTTL s !! key = Some v)
  /\ (forall v, s !! key = Some v -> Tombstone v = true ->
        age now v <= tombstoneTTL ->
        HardDeleteExpired now tombstoneTTL s !! key = Some v)
  /\ (s !! key = None -> HardDeleteExpired now tombstoneTTL s !! key = None).
Proof.
  rewrite HardDeleteExpired_lookup.
  split; [|split; [|split]].
  - intros v -> Hg. by rewrite (proj2 (sweeps_garbage now tombstoneTTL v) Hg).
  - intros v -> Hg. destruct (sweeps now tombstoneTTL v) eqn:E; [|done].
    by apply sweeps_garbage in E.
  - intros v -> Ht Hage. destruct (sweeps now tombstoneTTL v) eqn:E; [|done].
    apply sweeps_garbage in E as [[_ ?]|[? _]]; [lia|congruence].
  - by intros ->.
Qed.

Lemma HardDeleteExpired_exact_witness :
  HardDeleteExpired clock0 GoTime.Minute storeGC !! "del" = None
  /\ HardDeleteExpired clock0 (5 * GoTime.Hour) storeGC !! "del" = Some entryDel
  /\ HardDeleteExpired clock0 (5 * GoTime.Hour) storeGC !! "ttl" = None.
Proof.
  split; [|split].
  - apply (HardDeleteExpired_exact clock0 GoTime.Minute storeGC "del") with entryDel.
    + reflexivity.
    + left. split; [reflexivity|]. vm_compute. reflexivity.
  - apply (HardDeleteExpired_exact clock0 (5 * GoTime.Hour) storeGC "del").
    + reflexivity.
    + reflexivity.
    + vm_compute. discriminate.
  - apply (HardDeleteExpired_exact clock0 (5 * GoTime.Hour) storeGC "ttl") with entryTtl.
    + reflexivity.
    + right. split; [reflexivity|]. split; vm_compute; [discriminate|reflexivity].
Defined.

(* ===================================================================== *)
(** ** Reads *)
(* ===================================================================== *)

(** C5. [Get] hands back whatever is stored, tombstoned or expired as it
    may be; [handleGet] answers 404 for a stored entry that is a tombstone
    or whose expiry is in the past at the time of the read, with the entry
    still in the store, and otherwise 200 with the value of the entry.  The
    read leaves the store alone. *)
Theorem handleGet_visibility (n : Node) (r : Request) (now : GoTime.Time)
    (w : World) (key : string) (it : Item) :
  keyFromPath (path r) = Some key ->
  store w !! key = Some it ->
  Get key (store w) = (it, true)
  /\ (Tombstone it = true \/ past_expiry now it ->
        run (handleGet n r now) w = (notFound, w))
  /\ (~ (Tombstone it = true \/ past_expiry now it) ->
        run (handleGet n r now) w = (mkResponse 200 (Raw (Value it)) None, w)).
Proof.
  intros Hkey Hit.
  assert (Get key (store w) = (it, true)) as HGet by (unfold Get; by rewrite Hit).
  split; [done|].
  unfold run, handleGet, bind, storeGet. rewrite Hkey, HGet. simpl.
  split.
  - intros [Ht|He].
    + by rewrite Ht.
    + apply expired_past_expiry in He. rewrite He.
      by destruct (Tombstone it).
  - intros Hvis. destruct (Tombstone it) eqn:Et; [tauto|].
    destruct (expired it now) eqn:Ee; [|done].
    apply expired_past_expiry in Ee. tauto.
Qed.

Lemma handleGet_visibility_witness :
  run (handleGet nodeN1 (mkRequest "/kv/ttl" noQuery None) clock0)
      (mkWorld storeGC [])
  = (notFound, mkWorld storeGC [])
  /\ run (handleGet nodeN1 (mkRequest "/kv/ttl" noQuery None)
                    (clock0 - 15 * GoTime.Millisecond))
         (mkWorld storeGC [])
     = (mkResponse 200 (Raw "v") None, mkWorld storeGC []).
Proof.
  split.
  - apply (handleGet_visibility nodeN1 (mkRequest "/kv/ttl" noQuery None) clock0
             (mkWorld storeGC []) "ttl" entryTtl).
    + reflexivity.
    + reflexivity.
    + right. split; vm_compute; [discriminate|reflexivity].
  - apply (handleGet_visibility nodeN1 (mkRequest "/kv/ttl" noQuery None)
             (clock0 - 15 * GoTime.Millisecond)
             (mkWorld storeGC []) "ttl" entryTtl).
    + reflexivity.
    + reflexivity.
    + intros [H|[_ H]]; vm_compute in H; discriminate H.
Defined.

(** A key that was never stored reads as not found as well. *)
Lemma handleGet_absent n r now w key :
  keyFromPath (path r) = Some key -> store w !! key = None ->
  run (handleGet n r now) w = (notFound, w).
Proof.
  intros Hkey Hnone. unfold run, handleGet, bind, storeGet, Get.
  by rewrite Hkey, Hnone.
Qed.

(* ===================================================================== *)
(** ** The replication engine *)
(* ===================================================================== *)

Lemma dispatch_run ps msg w :
  dispatch ps msg w
  = (inr tt, mkWorld (store w) (trace w ++ map (fun p => PostSync p msg) ps)).
Proof.
  revert w. induction ps as [|p ps IH]; intros w; simpl.
  - unfold ret. rewrite app_nil_r. by destruct w.
  - unfold bind, emit. rewrite IH. simpl. by rewrite <- app_assoc.
Qed.

(** The value and the effects of a call, side by side. *)
Lemma Replicate_run n msg min full arrivals w :
  let ps := activePeers n in
  let total := Z.of_nat (length ps) in
  Replicate n msg min full arrivals w
  = if total =? 0 then
      (inr (if (min >? 0) || full then (0, 0, Some ErrNoPeers) else (0, 0, None)),
       mkWorld (store w) (trace w ++ [CallReplicate msg min full]))
    else
      (inr (collect (replTarget min full total) total (map deliver arrivals) 0 None),
       mkWorld (store w)
               (trace w ++ CallReplicate msg min full
                        :: map (fun p => PostSync p msg) ps)).
Proof.
  intros ps total. unfold Replicate, bind, emit. fold ps. fold total.
  destruct (total =? 0).
  - by destruct ((min >? 0) || full).
  - rewrite dispatch_run. unfold ret. simpl. by rewrite <- app_assoc.
Qed.

Lemma replTarget_spec min full total :
  0 <= total ->
  replTarget min full total = if full then total else Z.max 0 (Z.min min total).
Proof.
  intros Htot. unfold replTarget. destruct full.
  - destruct (Z.ltb_spec total 0); [lia|].
    destruct (Z.gtb_spec total total); [lia|done].
  - destruct (Z.ltb_spec min 0).
    + destruct (Z.gtb_spec 0 total); lia.
    + destruct (Z.gtb_spec min total); lia.
Qed.

(** The loop never counts past the target it starts below. *)
Lemma collect_acked target total l acked firstErr :
  acked <= target ->
  let '(acked', total', _) := collect target total l acked firstErr in
  acked <= acked' <= target /\ total' = total.
Proof.
  revert acked firstErr. induction l as [|r l IH]; intros acked firstErr Hle; simpl.
  - destruct (acked <? target); split; (lia || done).
  - destruct (Z.ltb_spec acked target); [|split; (lia || done)].
    destruct (ok r).
    + specialize (IH (acked + 1) firstErr ltac:(lia)).
      destruct (collect _ _ _ _ _) as [[? ?] ?]. split; [lia|tauto].
    + destruct firstErr.
      * specialize (IH acked (Some e) Hle).
        destruct (collect _ _ _ _ _) as [[? ?] ?]. done.
      * specialize (IH acked (err r) Hle).
        destruct (collect _ _ _ _ _) as [[? ?] ?]. done.
Qed.

(** Once an error is recorded the loop returns an error. *)
Lemma collect_keeps_error target total l acked e :
  exists acked', collect target total l acked (Some e) = (acked', total, Some e).
Proof.
  revert acked. induction l as [|r l IH]; intros acked; simpl.
  - destruct (acked <? target); eauto.
  - destruct (acked <? target); [|eauto]. destruct (ok r); apply IH.
Qed.

(** When the loop ends without an error the target was reached. *)
Lemma collect_nil_error target total l acked acked' total' :
  acked <= target ->
  collect target total l acked None = (acked', total', None) ->
  acked' = target.
Proof.
  revert acked. induction l as [|r l IH]; intros acked Hle; simpl.
  - destruct (Z.ltb_spec acked target); [done|]. intros [= <- _]. lia.
  - destruct (Z.ltb_spec acked target); [|intros [= <- _]; lia].
    destruct (ok r).
    + apply IH. lia.
    + destruct (err r) as [e|]; [|by apply IH].
      destruct (collect_keeps_error target total l acked e) as [a ->]. done.
Qed.

(** When the deliveries collected first are acknowledgements, enough of
    them to meet the target, the call returns the target and no error. *)
Lemma collect_all_acked target total (l1 l2 : list res) :
  0 <= target ->
  Forall (fun r => ok r = true) l1 ->
  Z.of_nat (length l1) = target ->
  collect target total (l1 ++ l2) 0 None = (target, total, None).
Proof.
  intros Ht Hok Hlen.
  assert (forall acked, acked + Z.of_nat (length l1) = target ->
            collect target total (l1 ++ l2) acked None = (target, total, None)) as Hgen.
  { clear Hlen. induction Hok as [|r l1 Hr _ IH]; intros acked Hsum; simpl in *.
    - destruct l2; simpl; destruct (Z.ltb_spec acked target); try lia;
        by replace acked with target by lia.
    - destruct (Z.ltb_spec acked target); [|lia].
      rewrite Hr. apply IH. lia. }
  apply Hgen. lia.
Qed.

(** C7. With no active peer and an acknowledgement asked for ([min > 0] or
    [full]) the call fails at once with "no peers available", acked 0 and
    total 0, before anything is sent; in every other case it collects
    towards the target [total] when [full], and otherwise [min] capped by
    [total] and floored at 0. *)
Theorem Replicate_no_peers_or_target (n : Node) (msg : SyncMsg.t) (min : Z)
    (full : bool) (arrivals : list DoResult) (w : World) :
  let total := Z.of_nat (length (activePeers n)) in
  (activePeers n = [] -> 0 < min \/ full = true ->
     Replicate n msg min full arrivals w
     = (inr (0, 0, Some ErrNoPeers),
        mkWorld (store w) (trace w ++ [CallReplicate msg min full])))
  /\ (~ (activePeers n = [] /\ (0 < min \/ full = true)) ->
        (Replicate n msg min full arrivals w).1
        = inr (collect (if full then total else Z.max 0 (Z.min min total))
                       total (map deliver arrivals) 0 None))
  /\ replTarget min full total
     = (if full then total else Z.max 0 (Z.min min total)).
Proof.
  intros total. rewrite Replicate_run. fold total.
  split; [|split; [|apply replTarget_spec; lia]].
  - intros Hnil Hask. subst total. rewrite Hnil. simpl.
    destruct Hask as [Hmin| ->].
    + destruct (Z.gtb_spec min 0); [done|lia].
    + by rewrite orb_true_r.
  - intros Hnot. destruct (Z.eqb_spec total 0) as [E|E]; simpl.
    + assert (activePeers n = []) as Hnil.
      { subst total. destruct (activePeers n); [done|simpl in E; lia]. }
      destruct (Z.gtb_spec min 0); [tauto|].
      destruct full; [tauto|]. simpl. rewrite E.
      replace (Z.max 0 (Z.min min 0)) with 0 by lia.
      by destruct (map deliver arrivals).
    + rewrite replTarget_spec by lia. done.
Qed.

Lemma Replicate_no_peers_or_target_witness :
  Replicate nodeLone msgSet 1 false [] world0
  = (inr (0, 0, Some ErrNoPeers), mkWorld ∅ [CallReplicate msgSet 1 false])
  /\ (Replicate nodeN1 msgSet 5 false [DoResp 204; DoResp 204] world0).1
     = inr (2, 2, None).
Proof.
  split.
  - apply (Replicate_no_peers_or_target nodeLone msgSet 1 false [] world0).
    + reflexivity.
    + left. lia.
  - rewrite (proj1 (proj2 (Replicate_no_peers_or_target nodeN1 msgSet 5 false
                             [DoResp 204; DoResp 204] world0))).
    + reflexivity.
    + intros [H _]. vm_compute in H. discriminate H.
Defined.

(** C1: where the code departs from it.  Two peers, one acknowledgement
    asked for; the refused delivery is collected first and the
    acknowledgement second.  The count reaches the target, and the call
    still returns the error of the refused delivery.  With the same two
    results collected in the other order it returns no error. *)
Theorem Replicate_error_after_target_met :
  replTarget 1 false 2 = 1
  /\ (Replicate nodeN1 msgSet 1 false
                [DoErr "connection refused"; DoResp 204] world0).1
     = inr (1, 2, Some (ErrTransport "connection refused"))
  /\ (Replicate nodeN1 msgSet 1 false
                [DoResp 204; DoErr "connection refused"] world0).1
     = inr (1, 2, None).
Proof. repeat split; vm_compute; reflexivity. Qed.

(** What does hold: with no failed delivery collected on the way to the
    target, the call returns no error, whatever happens to the deliveries
    still outstanding. *)
Lemma Replicate_target_met_clean n msg min full (acks rest : list DoResult) w :
  let total := Z.of_nat (length (activePeers n)) in
  total <> 0 ->
  Forall (fun r => ok (deliver r) = true) acks ->
  Z.of_nat (length acks) = replTarget min full total ->
  (Replicate n msg min full (acks ++ rest) w).1
  = inr (replTarget min full total, total, None).
Proof.
  intros total Htot Hok Hlen. rewrite Replicate_run. fold total.
  destruct (Z.eqb_spec total 0); [done|]. simpl. f_equal.
  rewrite map_app. apply collect_all_acked.
  - rewrite <- Hlen. lia.
  - by apply Forall_map.
  - by rewrite length_map.
Qed.

(* ===================================================================== *)
(** ** Writes and inbound sync *)
(* ===================================================================== *)

Lemma Replicate_then_answer n msg min full arrivals okStatus w :
  exists a,
    (Replicate n msg min full arrivals w).1 = inr a
    /\ run (bind (Replicate n msg min full arrivals)
                 (fun a => let '(acked, total, err) := a in
                           match err with
                           | Some e => reply (mkResponse 502 (ReplicationError e acked total) None)
                           | None => ret (mkResponse okStatus NoBody (Some (acked, total)))
                           end)) w
       = (answer okStatus a, (Replicate n msg min full arrivals w).2).
Proof.
  unfold run, bind. rewrite Replicate_run. cbv zeta.
  destruct (Z.of_nat (length (activePeers n)) =? 0).
  - eexists. split; [reflexivity|]. by destruct ((min >? 0) || full).
  - eexists. split; [reflexivity|].
    by destruct (collect _ _ _ _ _) as [[? ?] [?|]].
Qed.

(** The PUT path keeps to the rule: whenever [handlePut] enters
    [Replicate] or posts to a peer, its local [Put] was applied.  A stale
    write answers 409 and leaves store and trace as they were. *)
Lemma handlePut_replicates_only_applied PD PI AT n r now1 now2 arrivals w :
  trace (run (handlePut PD PI AT n r now1 now2 arrivals) w).2 <> trace w ->
  exists key item,
    keyFromPath (path r) = Some key
    /\ Put key item (store w)
       = (store (run (handlePut PD PI AT n r now1 now2 arrivals) w).2, true).
Proof.
  remember (run (handlePut PD PI AT n r now1 now2 arrivals) w) as out eqn:Hout.
  unfold handlePut in Hout.
  destruct (keyFromPath (path r)) as [key|]; [|by subst].
  destruct (reqBody r) as [body|]; [|by subst].
  destruct (parseDurationQS PD PI (query r "ttl")) as [ttl|]; [|by subst].
  cbv zeta in Hout.
  match type of Hout with context [storePut key ?it] => set (item := it) in * end.
  unfold run in Hout. unfold bind at 1 in Hout. unfold storePut in Hout.
  destruct (Put key item (store w)) as [s' applied] eqn:EP.
  destruct applied; cbn [negb] in Hout.
  - intros _. exists key, item. split; [done|].
    match type of Hout with
    | context [Replicate ?n ?m ?mn ?fl ?ar] =>
        destruct (Replicate_then_answer n m mn fl ar 201 (mkWorld s' (trace w)))
          as (a & _ & Hrun); unfold run in Hrun; rewrite Hrun in Hout
    end.
    subst out. by rewrite Replicate_run; destruct (_ =? 0).
  - subst out. by destruct w.
Qed.

Lemma handlePut_stale PD PI AT n r now1 now2 arrivals w :
  status (run (handlePut PD PI AT n r now1 now2 arrivals) w).1 = 409 ->
  (run (handlePut PD PI AT n r now1 now2 arrivals) w).2 = w.
Proof.
  remember (run (handlePut PD PI AT n r now1 now2 arrivals) w) as out eqn:Hout.
  unfold handlePut in Hout.
  destruct (keyFromPath (path r)) as [key|]; [|by subst].
  destruct (reqBody r) as [body|]; [|by subst].
  destruct (parseDurationQS PD PI (query r "ttl")) as [ttl|]; [|by subst].
  cbv zeta in Hout.
  match type of Hout with context [storePut key ?it] => set (item := it) in * end.
  unfold run in Hout. unfold bind at 1 in Hout. unfold storePut in Hout.
  destruct (Put key item (store w)) as [s' applied] eqn:EP.
  destruct applied; cbn [negb] in Hout.
  - match type of Hout with
    | context [Replicate ?n ?m ?mn ?fl ?ar] =>
        destruct (Replicate_then_answer n m mn fl ar 201 (mkWorld s' (trace w)))
          as (a & _ & Hrun); unfold run in Hrun; rewrite Hrun in Hout
    end.
    subst out. by destruct a as [[? ?] [?|]].
  - unfold Put in EP. destruct (store w !! key) as [cur|]; [|done].
    destruct (newer item cur); [done|]. injection EP as <-.
    subst out. by destruct w.
Qed.

(** C2: where the code departs from it.  The store holds a newer entry
    for "k" than the tombstone a DELETE builds at clock reading 100; the
    local [Put] is rejected and the store stays as it was, and the handler
    goes on to enter [Replicate] and to post the "del" message to both
    peers. *)
Theorem handleDelete_stale_still_replicates :
  let held := mkItem "v" GoTime.zero 200 "N2" false in
  let stone := mkItem "" GoTime.zero 100 "N1" true in
  let msg := SyncMsg.mk "del" "k" "" None 100 "N1" in
  let w := mkWorld (<["k" := held]> ∅) [] in
  Put "k" stone (store w) = (store w, false)
  /\ run (handleDelete decimal nodeN1 (mkRequest "/kv/k" noQuery None) 100
                       [DoResp 204; DoResp 204]) w
     = (mkResponse 204 NoBody (Some (0, 2)),
        mkWorld (store w)
                [CallReplicate msg 0 false;
                 PostSync "http://a" msg; PostSync "http://b" msg]).
Proof. split; vm_compute; reflexivity. Qed.

(** A DELETE on a key the store does not hold: the tombstone is stored
    whatever the replication does, and the answer is 204 exactly when
    [Replicate] returns no error. *)
Lemma handleDelete_fresh_key AT n r now arrivals w key :
  keyFromPath (path r) = Some key ->
  store w !! key = None ->
  let out := run (handleDelete AT n r now arrivals) w in
  store out.2 = <[key := tombstoneOf n now]> (store w)
  /\ exists a,
       (Replicate n (SyncMsg.mk "del" key "" None (GoTime.UnixNano now) (ID n))
                  (minRepOf AT r) (fullOf r) arrivals
                  (mkWorld (<[key := tombstoneOf n now]> (store w)) (trace w))).1
       = inr a
       /\ out.1 = answer 204 a.
Proof.
  intros Hkey Hnone out.
  set (msg := SyncMsg.mk "del" key "" None (GoTime.UnixNano now) (ID n)).
  set (w1 := mkWorld (<[key := tombstoneOf n now]> (store w)) (trace w)).
  destruct (Replicate_then_answer n msg (minRepOf AT r) (fullOf r) arrivals 204 w1)
    as (a & Ha & Hrun).
  assert (out = (answer 204 a,
                 (Replicate n msg (minRepOf AT r) (fullOf r) arrivals w1).2)) as ->.
  { subst out. rewrite <- Hrun. unfold handleDelete. rewrite Hkey.
    cbv zeta. unfold run. unfold bind at 1. unfold storePut, Put.
    rewrite Hnone. reflexivity. }
  split.
  - rewrite Replicate_run. cbv zeta.
    destruct (Z.of_nat (length (activePeers n)) =? 0); reflexivity.
  - exists a. split; [exact Ha|reflexivity].
Qed.

(** C10: where the code departs from it.  A DELETE with [min=1] on a key
    the store never held, two peers, the refused delivery collected before
    the acknowledgement.  The tombstone is stored where nothing was, and
    the count of acknowledgements meets the target of 1; the answer is
    nevertheless 502, not 204. *)
Theorem handleDelete_fresh_key_target_met_502 :
  let r := mkRequest "/kv/k" queryMin1 None in
  let arrivals := [DoErr "connection refused"; DoResp 204] in
  let out := run (handleDelete decimal nodeN1 r 100 arrivals) world0 in
  store world0 !! "k" = None
  /\ store out.2 !! "k" = Some (mkItem "" GoTime.zero 100 "N1" true)
  /\ replTarget (minRepOf decimal r) (fullOf r) 2 = 1
  /\ out.1 = mkResponse 502
               (ReplicationError (ErrTransport "connection refused") 1 2) None.
Proof. repeat split; vm_compute; reflexivity. Qed.

(** C8. Handling an inbound sync message never enters [Replicate] and
    posts nothing to any peer; for the operations "set" and "del" all it
    does to the node is one [Put] of the entry the message stands for,
    answered with 204, and any other message leaves the node as it was. *)
Theorem handleSync_no_rebroadcast (n : Node) (decoded : option SyncMsg.t)
    (w : World) :
  trace (run (handleSync n decoded) w).2 = trace w
  /\ (forall msg, decoded = Some msg ->
        SyncMsg.Op msg = "set" \/ SyncMsg.Op msg = "del" ->
        run (handleSync n decoded) w
        = (mkResponse 204 NoBody None,
           mkWorld (Put (SyncMsg.Key msg) (entryOf msg) (store w)).1 (trace w)))
  /\ (forall msg, decoded = Some msg ->
        SyncMsg.Op msg <> "set" -> SyncMsg.Op msg <> "del" ->
        run (handleSync n decoded) w
        = (mkResponse 400 (ErrText "unknown op") None, w))
  /\ (decoded = None ->
        run (handleSync n decoded) w = (mkResponse 400 (ErrText "bad json") None, w)).
Proof.
  destruct decoded as [msg|]; [|done].
  assert (run (handleSync n (Some msg)) w
          = if String.eqb (SyncMsg.Op msg) "set" || String.eqb (SyncMsg.Op msg) "del"
            then (mkResponse 204 NoBody None,
                  mkWorld (Put (SyncMsg.Key msg) (entryOf msg) (store w)).1 (trace w))
            else (mkResponse 400 (ErrText "unknown op") None, w)) as Hrun.
  { unfold handleSync, entryOf, run, bind, storePut.
    destruct (String.eqb (SyncMsg.Op msg) "set") eqn:Eset.
    - apply String.eqb_eq in Eset. rewrite Eset. simpl.
      destruct (SyncMsg.ExpiresAt msg); simpl; by destruct (Put _ _ _).
    - destruct (String.eqb (SyncMsg.Op msg) "del"); simpl.
      + by destruct (Put _ _ _).
      + by destruct w. }
  rewrite Hrun. clear Hrun.
  destruct (String.eqb_spec (SyncMsg.Op msg) "set");
    destruct (String.eqb_spec (SyncMsg.Op msg) "del"); simpl;
    (split; [done|]); (split; [intros ? [= <-] ?; (done || tauto)|]);
    (split; [intros ? [= <-] ? ?; done|done]).
Qed.

Lemma handleSync_no_rebroadcast_witness :
  run (handleSync nodeN1 (Some msgSet)) world0
  = (mkResponse 204 NoBody None,
     mkWorld (<["k" := mkItem "v" GoTime.zero 100 "N1" false]> ∅) []).
Proof.
  rewrite (proj1 (proj2 (handleSync_no_rebroadcast nodeN1 (Some msgSet) world0))
             msgSet eq_refl (or_introl eq_refl)).
  reflexivity.
Defined.

(* ===================================================================== *)
(** ** Convergence *)
(* ===================================================================== *)

Lemma below_Put key w k x s :
  below key w s -> (k = key -> x = w \/ lww_lt x w) ->
  below key w (Put k x s).1.
Proof.
  intros Hs Hx cur. destruct (decide (k = key)) as [->|Hne].
  - rewrite Put_lookup. intros [= <-].
    destruct (merged_max (s !! key) x) as ([->|Hcur] & _); [tauto|].
    by apply Hs.
  - rewrite Put_lookup_ne by done. apply Hs.
Qed.

Lemma winner_kept key w k x s :
  s !! key = Some w -> (k = key -> x = w \/ lww_lt x w) ->
  (Put k x s).1 !! key = Some w.
Proof.
  intros Hw Hx. destruct (decide (k = key)) as [->|Hne].
  - rewrite Put_lookup, Hw. unfold merged. f_equal.
    destruct (newer x w) eqn:E; [|done]. apply newer_lww in E.
    destruct (Hx eq_refl) as [->|Hlt]; [done|].
    by destruct (lww_lt_cycle x w).
  - by rewrite Put_lookup_ne.
Qed.

Lemma winner_stored key w s :
  below key w s -> (Put key w s).1 !! key = Some w.
Proof.
  intros Hs. rewrite Put_lookup. f_equal. unfold merged.
  destruct (s !! key) as [cur|] eqn:E; [|done].
  destruct (newer w cur) eqn:En; [done|]. apply newer_false in En.
  destruct (Hs cur E) as [->|Hlt]; [done|tauto].
Qed.

Lemma PutAll_winner key w l s :
  below key w s ->
  (forall x, (key, x) ∈ l -> x = w \/ lww_lt x w) ->
  (key, w) ∈ l \/ s !! key = Some w ->
  PutAll l s !! key = Some w.
Proof.
  revert s. induction l as [|[k x] l IH]; intros s Hs Hl Hin; simpl.
  - destruct Hin as [Hin|Hin]; [|done]. by apply elem_of_nil in Hin.
  - assert (k = key -> x = w \/ lww_lt x w) as Hx.
    { intros ->. apply Hl. by left. }
    apply IH.
    + by apply below_Put.
    + intros y Hy. apply Hl. by right.
    + destruct Hin as [Hin|Hin].
      * apply elem_of_cons in Hin as [[= <- <-]|Hin]; [|by left].
        right. by apply winner_stored.
      * right. by apply winner_kept.
Qed.

(** C9, as stated, fails in two ways.
    A sweep between deliveries: node A takes the latest write (which
    carries an expiry), sweeps it away once expired, and then receives the
    older write late, storing it on the free key; node B receives the same
    two writes in order and sweeps.  A ends up holding and serving the
    older entry, B holds nothing and answers 404.
    A tie: two different writes with one (version, origin) pair are kept
    in arrival order, so two nodes handed both need not agree. *)
Lemma convergence_counterexample :
  let ttl := 5 * GoTime.Minute in
  let sA := PutAll [("k", entryOld)]
              (HardDeleteExpired 5000 ttl (PutAll [("k", entryNew)] ∅)) in
  let sB := HardDeleteExpired 5000 ttl
              (PutAll [("k", entryOld); ("k", entryNew)] ∅) in
  let get := handleGet nodeN1 (mkRequest "/kv/k" noQuery None) 6000 in
  (lww_lt entryOld entryNew
   /\ sA !! "k" = Some entryOld
   /\ sB !! "k" = None
   /\ (run get (mkWorld sA [])).1 = mkResponse 200 (Raw "old") None
   /\ (run get (mkWorld sB [])).1 = notFound)
  /\ (lww_key entryA = lww_key entryA'
      /\ PutAll [("k", entryA); ("k", entryA')] ∅ !! "k" = Some entryA
      /\ PutAll [("k", entryA'); ("k", entryA)] ∅ !! "k" = Some entryA').
Proof.
  split.
  - split; [left; vm_compute; reflexivity|].
    repeat split; vm_compute; reflexivity.
  - repeat split; vm_compute; reflexivity.
Qed.

(** C9, amended.  A store holds at most one entry for a key (lookup is a
    function).  Take any number of nodes, each applying its own history of
    writes by [Put], in its own order and with repetitions, no sweep
    removing the key in between.  Once the write [w] to [key] has reached
    every node, [w] having a strictly greater (version, origin) pair than
    every other write to the key, every node holds exactly [w] for the
    key. *)
Theorem PutAll_converges (key : string) (w : Item)
    (nodes : list (Store * list (string * Item))) :
  Forall (reached key w) nodes ->
  Forall (fun nd => PutAll nd.2 nd.1 !! key = Some w) nodes.
Proof.
  intros Hall. eapply Forall_impl; [exact Hall|].
  intros [s l] (Hin & Hl & Hs). simpl in *.
  apply PutAll_winner; [done|done|by left].
Qed.

Lemma PutAll_converges_witness :
  Forall (fun nd : Store * list (string * Item) =>
            PutAll nd.2 nd.1 !! "k" = Some entryZ)
         [ (∅, [("k", entryA); ("k", entryZ); ("j", entryB)]);
           (<["k" := entryB]> ∅, [("k", entryZ); ("k", entryA); ("k", entryZ)]) ].
Proof.
  apply (PutAll_converges "k" entryZ).
  assert (lww_lt entryA entryZ) as HA.
  { right. split; [reflexivity|]. apply lex_lt_head. vm_compute. reflexivity. }
  assert (lww_lt entryB entryZ) as HB.
  { left. vm_compute. reflexivity. }
  apply Forall_cons; split; [|apply Forall_cons; split; [|apply Forall_nil; exact I]].
  - split; [|split]; simpl.
    + apply list_elem_of_In. simpl. tauto.
    + intros x Hx. apply list_elem_of_In in Hx. simpl in Hx.
      destruct Hx as [Hx|[Hx|[Hx|[]]]].
      * injection Hx as <-. by right.
      * injection Hx as <-. by left.
      * discriminate Hx.
    + intros cur Hc. rewrite lookup_empty in Hc. discriminate Hc.
  - split; [|split]; simpl.
    + apply list_elem_of_In. simpl. tauto.
    + intros x Hx. apply list_elem_of_In in Hx. simpl in Hx.
      destruct Hx as [Hx|[Hx|[Hx|[]]]].
      * injection Hx as <-. by left.
      * injection Hx as <-. by right.
      * injection Hx as <-. by left.
    + intros cur Hc. rewrite lookup_insert_eq in Hc. injection Hc as <-. by right.
Defined.

(* ===================================================================== *)
(** ** Scenarios of the specification, run on the model *)
(* ===================================================================== *)

(** Scenario 5: PUT with [min=1] and one healthy peer answers 201 with
    acked 1 of 1; the peer applies the message it was sent and then
    serves the value. *)
Example scenario_put_then_peer_get :
  run (handlePut noDuration decimal decimal nodeA
         (mkRequest "/kv/hello" queryMin1 (Some "world")) clock0 clock0
         [DoResp 204]) world0
  = (mkResponse 201 NoBody (Some (1, 1)),
     mkWorld (<["hello" := mkItem "world" GoTime.zero clock0 "N1" false]> ∅)
             [CallReplicate msgHello 1 false; PostSync "http://n2" msgHello])
  /\ (let w2 := (run (handleSync nodeB (Some msgHello)) world0).2 in
      run (handleGet nodeB (mkRequest "/kv/hello" noQuery None) (clock0 + 1)) w2
      = (mkResponse 200 (Raw "world") None, w2)).
Proof. split; vm_compute; reflexivity. Qed.

(** Scenario 6: DELETE with [full=true] and the only peer unreachable
    answers 502 with acked 0 of 1. *)
Example scenario_delete_full_unreachable :
  (run (handleDelete decimal nodeA (mkRequest "/kv/hello" queryFull None) clock0
          [DoErr "connection refused"]) world0).1
  = mkResponse 502 (ReplicationError (ErrTransport "connection refused") 0 1) None.
Proof. vm_compute. reflexivity. Qed.
